(** * Event throttler: a per-key sliding-window throttle

    Shallow embedding of [event_throttler/throttler.py] (class
    [EventThrottler]) together with the constants of
    [event_throttler/config.py] it reads, of the unit tests of
    [tests/test_throttler.py], of [high_load_example] in
    [examples/usage_example.py] and of the logger set-up of
    [event_throttler/logger.py].

    Python integers are unbounded, so timestamps and windows are [Z].
    The dictionary [_last_processed_timestamps] is a [gmap string Z].
    Every method is a computation in a small monad that threads the
    instance, collects the calls made to the module logger and can raise
    (a dictionary subscript on a missing key raises [KeyError]). *)

From stdpp Require Import gmap strings list fin_maps.
From stdpp Require Import sorting pretty.

Local Open Scope Z_scope.

(** ** config.py *)

(** [DEFAULT_WINDOW] is the default argument of [__init__].  The two
    performance settings are declared in config.py and read by no method. *)
Definition DEFAULT_WINDOW : Z := 10.
Definition CLEANUP_INTERVAL : Z := 3600.
Definition MAX_KEYS : Z := 1000000.

(** ** The instance *)

(** [_lock] is the recursion depth of the instance's [threading.RLock] as held
    by the calling thread. *)
Record EventThrottler := mkEventThrottler {
  _window : Z;
  _last_processed_timestamps : gmap string Z;
  _lock : nat
}.

Definition with_window (w : Z) (self : EventThrottler) : EventThrottler :=
  mkEventThrottler w (_last_processed_timestamps self) (_lock self).

Definition with_timestamps (m : gmap string Z) (self : EventThrottler)
  : EventThrottler :=
  mkEventThrottler (_window self) m (_lock self).

Definition with_lock_depth (n : nat) (self : EventThrottler) : EventThrottler :=
  mkEventThrottler (_window self) (_last_processed_timestamps self) n.

(** ** Calls to the module logger

    One constructor per format string of throttler.py, holding the values
    interpolated into it.  A record is a call made to the logger, whatever
    the handlers then do with it. *)

Inductive LogLevel := DEBUG | INFO.

Inductive LogMessage :=
| MsgInitialized (window : Z)
| MsgProcessingNewKey (key event_id : string) (timestamp : Z)
| MsgProcessingAfterWindow (key event_id : string) (time_diff : Z)
| MsgThrottling (key event_id : string) (time_diff window : Z)
| MsgWindowUpdated (old_window new_window : Z)
| MsgCleared.

Definition LogRecord : Type := LogLevel * LogMessage.

(** ** Exceptions and the method monad *)

Inductive Exn := KeyError (key : string).

Inductive Outcome (A : Type) :=
| Returned (a : A) (self : EventThrottler) (log : list LogRecord)
| Raised (e : Exn) (self : EventThrottler) (log : list LogRecord).
Arguments Returned {A} a self log.
Arguments Raised {A} e self log.

Definition M (A : Type) : Type := EventThrottler -> Outcome A.

Definition add_log {A} (l : list LogRecord) (o : Outcome A) : Outcome A :=
  match o with
  | Returned a s l' => Returned a s (l ++ l')
  | Raised e s l' => Raised e s (l ++ l')
  end.

#[global] Instance M_ret : MRet M := fun A a self => Returned a self [].

#[global] Instance M_bind : MBind M := fun A B f m self =>
  match m self with
  | Returned a self' l => add_log l (f a self')
  | Raised e self' l => Raised e self' l
  end.

(** Observations on an outcome. *)

Definition returned {A} (o : Outcome A) : option A :=
  match o with Returned a _ _ => Some a | Raised _ _ _ => None end.

Definition final {A} (o : Outcome A) : EventThrottler :=
  match o with Returned _ s _ | Raised _ s _ => s end.

Definition logged {A} (o : Outcome A) : list LogRecord :=
  match o with Returned _ _ l | Raised _ _ l => l end.

(** ** Primitive statements *)

Definition raise {A} (e : Exn) : M A := fun self => Raised e self [].

Definition logger_debug (msg : LogMessage) : M unit :=
  fun self => Returned tt self [(DEBUG, msg)].

Definition logger_info (msg : LogMessage) : M unit :=
  fun self => Returned tt self [(INFO, msg)].

(** [self._window] *)
Definition read_window : M Z := fun self => Returned (_window self) self [].

(** [self._window = w] *)
Definition write_window (w : Z) : M unit :=
  fun self => Returned tt (with_window w self) [].

(** [key in self._last_processed_timestamps] *)
Definition dict_contains (key : string) : M bool := fun self =>
  Returned (bool_decide (is_Some (_last_processed_timestamps self !! key)))
           self [].

(** [self._last_processed_timestamps[key]] *)
Definition dict_getitem (key : string) : M Z := fun self =>
  match _last_processed_timestamps self !! key with
  | Some v => Returned v self []
  | None => Raised (KeyError key) self []
  end.

(** [self._last_processed_timestamps[key] = v] *)
Definition dict_setitem (key : string) (v : Z) : M unit := fun self =>
  Returned tt (with_timestamps (<[key := v]> (_last_processed_timestamps self)) self) [].

(** [self._last_processed_timestamps.clear()] *)
Definition dict_clear : M unit := fun self =>
  Returned tt (with_timestamps ∅ self) [].

(** [len(self._last_processed_timestamps)] *)
Definition dict_len : M Z := fun self =>
  Returned (Z.of_nat (size (_last_processed_timestamps self))) self [].

(** [self._lock.acquire()] and [self._lock.release()] as [with] calls them:
    the lock is reentrant, so the owning thread always acquires it, and a
    release always follows an acquire. *)
Definition acquire : M unit := fun self =>
  Returned tt (with_lock_depth (S (_lock self)) self) [].

Definition release : M unit := fun self =>
  Returned tt (with_lock_depth (Nat.pred (_lock self)) self) [].

(** [with self._lock: body]; the lock is released on both exits. *)
Definition with_lock {A} (body : M A) : M A := fun self =>
  match (acquire ≫= λ _, body) self with
  | Returned a self' l => add_log l ((release ≫= λ _, mret a) self')
  | Raised e self' l => add_log l ((release ≫= λ _, raise e) self')
  end.

(** ** The methods of EventThrottler *)

Definition __init__ (window : Z) : Outcome unit :=
  (logger_info (MsgInitialized window))
    (mkEventThrottler window ∅ 0%nat).

Definition should_process (timestamp : Z) (event_id key : string) : M bool :=
  with_lock (
    seen ← dict_contains key;
    if negb seen then
      dict_setitem key timestamp;;
      logger_debug (MsgProcessingNewKey key event_id timestamp);;
      mret true
    else
      last_timestamp ← dict_getitem key;
      let time_diff := timestamp - last_timestamp in
      window ← read_window;
      if time_diff >=? window then
        dict_setitem key timestamp;;
        logger_debug (MsgProcessingAfterWindow key event_id time_diff);;
        mret true
      else
        window' ← read_window;
        logger_debug (MsgThrottling key event_id time_diff window');;
        mret false).

Definition update_window (new_window : Z) : M unit :=
  with_lock (
    old_window ← read_window;
    write_window new_window;;
    logger_info (MsgWindowUpdated old_window new_window)).

Definition get_window : M Z :=
  with_lock read_window.

Definition clear : M unit :=
  with_lock (
    dict_clear;;
    logger_info MsgCleared).

Definition get_key_count : M Z :=
  with_lock dict_len.

(** ** Sequences of calls on one instance *)

Inductive Call :=
| CallShouldProcess (timestamp : Z) (event_id key : string)
| CallUpdateWindow (new_window : Z)
| CallGetWindow
| CallClear
| CallGetKeyCount.

Inductive Value := VBool (b : bool) | VInt (z : Z) | VNone.

Definition call (c : Call) : M Value :=
  match c with
  | CallShouldProcess t e k => b ← should_process t e k; mret (VBool b)
  | CallUpdateWindow w => update_window w;; mret VNone
  | CallGetWindow => w ← get_window; mret (VInt w)
  | CallClear => clear;; mret VNone
  | CallGetKeyCount => n ← get_key_count; mret (VInt n)
  end.

Definition calls (cs : list Call) : M (list Value) := mapM call cs.

Definition is_clear (c : Call) : bool :=
  match c with CallClear => true | _ => false end.

(** The instance a constructor call leaves, and the instance a sequence of
    calls leaves. *)
Definition fresh (window : Z) : EventThrottler := final (__init__ window).

Definition after (cs : list Call) (self : EventThrottler) : EventThrottler :=
  final (calls cs self).

(** An outcome that is a normal return. *)
Definition is_Returned {A} (o : Outcome A) : Prop :=
  ∃ a self' log, o = Returned a self' log.

(** Instances used as concrete inputs below. *)
Definition userA_at_100_window_minus5 : EventThrottler :=
  after [CallShouldProcess 100 "e1" "userA"] (fresh (-5)).

Definition userA_at_10_window_10 : EventThrottler :=
  after [CallShouldProcess 10 "e1" "userA"] (fresh 10).

Definition two_users_window_10 : EventThrottler :=
  after [CallShouldProcess 1 "e1" "userA"; CallShouldProcess 15 "e4" "userB"]
        (fresh DEFAULT_WINDOW).

(** ** Observations on a sequence of calls *)

(** What one call contributes to the history of [key]: the timestamp and the
    boolean of a [should_process] call on [key], nothing for any other
    call. *)
Definition decision (key : string) (c : Call) (v : option Value)
  : option (Z * bool) :=
  match c, v with
  | CallShouldProcess t _ k, Some (VBool b) =>
      if bool_decide (k = key) then Some (t, b) else None
  | _, _ => None
  end.

(** The [should_process] calls on [key] in a sequence, in order, each with
    its timestamp and the boolean it returned. *)
Fixpoint decisions (key : string) (cs : list Call) (self : EventThrottler)
  : list (Z * bool) :=
  match cs with
  | [] => []
  | c :: cs' =>
      let o := call c self in
      option_list (decision key c (returned o)) ++ decisions key cs' (final o)
  end.

(** The timestamps of the accepted ones. *)
Definition accepted (key : string) (cs : list Call) (self : EventThrottler)
  : list Z :=
  omap (λ d : Z * bool, if d.2 then Some d.1 else None) (decisions key cs self).

(** The keys the [should_process] calls of a sequence name. *)
Definition keys_of (cs : list Call) : list string :=
  omap (λ c, match c with CallShouldProcess _ _ k => Some k | _ => None end) cs.

(** The arguments of the [update_window] calls of a sequence. *)
Definition windows_of (cs : list Call) : list Z :=
  omap (λ c, match c with CallUpdateWindow w => Some w | _ => None end) cs.

(** Calls that leave the window alone, and calls that neither change the
    window nor clear the dictionary. *)
Definition is_update_window (c : Call) : bool :=
  match c with CallUpdateWindow _ => true | _ => false end.

Definition is_quiet (c : Call) : bool :=
  negb (is_clear c) && negb (is_update_window c).

(** Calls that can bear on the decisions for [key]: every call except a
    [should_process] on another key. *)
Definition concerns (key : string) (c : Call) : bool :=
  match c with
  | CallShouldProcess _ _ k => bool_decide (k = key)
  | _ => true
  end.

(** A sequence of calls used as a concrete input. *)
Definition userA_history : list Call :=
  [CallShouldProcess 1 "e1" "userA"; CallShouldProcess 5 "e2" "userA";
   CallGetKeyCount; CallShouldProcess 12 "e3" "userA";
   CallShouldProcess 15 "e4" "userB"; CallShouldProcess 3 "e5" "userA";
   CallShouldProcess 30 "e6" "userA"].

(** Every two neighbours of a list are at least [w] apart. *)
Fixpoint gaps_at_least (w : Z) (l : list Z) : Prop :=
  match l with
  | [] => True
  | a :: l' =>
      match l' with [] => True | b :: _ => w ≤ b - a end ∧ gaps_at_least w l'
  end.

(** ** tests/test_throttler.py

    A test method is a list of steps on one instance: [assertTrue] and
    [assertFalse] of a [should_process] call, or a call whose result is
    dropped.  Running it stops at the first assertion that fails. *)

Inductive TestStep :=
| AssertTrue (m : M bool)
| AssertFalse (m : M bool)
| Exec (m : M unit).

Inductive TestOutcome :=
| TestOk
| AssertionError (step : nat)
| TestError (step : nat) (e : Exn).

Fixpoint run_steps (n : nat) (steps : list TestStep) (throttler : EventThrottler)
  : TestOutcome :=
  match steps with
  | [] => TestOk
  | AssertTrue m :: steps' =>
      match m throttler with
      | Returned true throttler' _ => run_steps (S n) steps' throttler'
      | Returned false _ _ => AssertionError n
      | Raised e _ _ => TestError n e
      end
  | AssertFalse m :: steps' =>
      match m throttler with
      | Returned false throttler' _ => run_steps (S n) steps' throttler'
      | Returned true _ _ => AssertionError n
      | Raised e _ _ => TestError n e
      end
  | Exec m :: steps' =>
      match m throttler with
      | Returned _ throttler' _ => run_steps (S n) steps' throttler'
      | Raised e _ _ => TestError n e
      end
  end.

Definition test_basic_throttling : TestOutcome :=
  run_steps 0
    [AssertTrue (should_process 1 "e1" "userA");
     AssertFalse (should_process 5 "e2" "userA");
     AssertTrue (should_process 12 "e3" "userA");
     AssertFalse (should_process 20 "e4" "userA")]
    (fresh 10).

Definition test_multiple_keys : TestOutcome :=
  run_steps 0
    [AssertTrue (should_process 1 "e1" "userA");
     AssertTrue (should_process 2 "e2" "userB");
     AssertTrue (should_process 3 "e3" "userC");
     AssertFalse (should_process 5 "e4" "userA");
     AssertFalse (should_process 6 "e5" "userB");
     AssertFalse (should_process 7 "e6" "userC");
     AssertTrue (should_process 12 "e7" "userA");
     AssertTrue (should_process 13 "e8" "userB");
     AssertTrue (should_process 14 "e9" "userC")]
    (fresh 10).

Definition test_edge_cases : TestOutcome :=
  run_steps 0
    [AssertTrue (should_process 10 "e1" "userA");
     AssertTrue (should_process 20 "e2" "userA");
     AssertFalse (should_process 29 "e3" "userA");
     AssertTrue (should_process 31 "e4" "userA");
     AssertTrue (should_process 0 "e5" "userB")]
    (fresh 10).

Definition test_update_window : TestOutcome :=
  run_steps 0
    [AssertTrue (should_process 1 "e1" "userA");
     Exec (update_window 20);
     AssertFalse (should_process 15 "e2" "userA");
     AssertTrue (should_process 22 "e3" "userA")]
    (fresh 10).

(** [test_thread_safety]: three workers, one per user, call
    [should_process] on the same instance.  [worker] is the sequence of
    calls one worker makes; a schedule is an order in which the lock lets
    the calls of all workers through. *)

Definition user_key (user_id : Z) : string := "user" +:+ pretty user_id.

Definition worker (user_id : Z) (timestamps : list (Z * string)) : list Call :=
  (λ p, CallShouldProcess p.1 p.2 (user_key user_id)) <$> timestamps.

Definition user1_data : list (Z * string) :=
  [(1, "e1"); (5, "e4"); (12, "e7"); (15, "e10")]%string.
Definition user2_data : list (Z * string) :=
  [(2, "e2"); (7, "e5"); (13, "e8"); (16, "e11")]%string.
Definition user3_data : list (Z * string) :=
  [(3, "e3"); (9, "e6"); (14, "e9"); (17, "e12")]%string.

Definition test_threads : list (list Call) :=
  [worker 1 user1_data; worker 2 user2_data; worker 3 user3_data].

(** [Interleaving ls cs]: [cs] merges the sequences [ls], keeping the order
    within each. *)
Inductive Interleaving {A : Type} : list (list A) → list A → Prop :=
| Interleaving_done ls :
    Forall (λ l, l = []) ls → Interleaving ls []
| Interleaving_step i x l ls cs :
    ls !! i = Some (x :: l) →
    Interleaving (<[i := l]> ls) cs →
    Interleaving ls (x :: cs).

(** [user_results[user_id]] of the test for a schedule [cs], and the two
    [assertEqual] checks made on it for each of the three users. *)
Definition user_results (cs : list Call) (user_id : Z) : list bool :=
  (decisions (user_key user_id) cs (fresh 10)).*2.

Definition count_of (b : bool) (l : list bool) : nat :=
  length (filter (λ x, x = b) l).

Definition thread_safety_checks (cs : list Call) : bool :=
  forallb (λ user_id,
             bool_decide (count_of true (user_results cs user_id) = 2%nat)
             && bool_decide (count_of false (user_results cs user_id) = 2%nat))
          [1; 2; 3].

(** A round-robin schedule of the three workers. *)
Definition round_robin_schedule : list Call :=
  [CallShouldProcess 1 "e1" "user1"; CallShouldProcess 2 "e2" "user2";
   CallShouldProcess 3 "e3" "user3"; CallShouldProcess 5 "e4" "user1";
   CallShouldProcess 7 "e5" "user2"; CallShouldProcess 9 "e6" "user3";
   CallShouldProcess 12 "e7" "user1"; CallShouldProcess 13 "e8" "user2";
   CallShouldProcess 14 "e9" "user3"; CallShouldProcess 15 "e10" "user1";
   CallShouldProcess 16 "e11" "user2"; CallShouldProcess 17 "e12" "user3"].

(** ** examples/usage_example.py: [high_load_example]

    [random.randint(0, 10)] is a parameter: [randint user_id event_num] is
    the increment drawn for that event.  [range(n)] is [seqZ 0 n], empty
    when [n <= 0].  The two counters travel with the loops. *)

Definition event_id_of (user_id event_num : Z) : string :=
  "e" +:+ pretty user_id +:+ "_" +:+ pretty event_num.

(** The inner [for event_num in range(events_per_user)] loop. *)
Fixpoint high_load_events (randint : Z → Z → Z) (user_id : Z)
    (event_nums : list Z) (base_timestamp : Z) (counts : Z * Z)
  : M (Z * Z) :=
  match event_nums with
  | [] => mret counts
  | event_num :: rest =>
      let timestamp_increment := randint user_id event_num in
      let base_timestamp := base_timestamp + timestamp_increment in
      let event_id := event_id_of user_id event_num in
      result ← should_process base_timestamp event_id (user_key user_id);
      high_load_events randint user_id rest base_timestamp
        (if result : bool then (counts.1 + 1, counts.2)
         else (counts.1, counts.2 + 1))
  end.

(** The outer [for user_id in range(num_users)] loop. *)
Fixpoint high_load_users (randint : Z → Z → Z) (user_ids : list Z)
    (events_per_user : Z) (counts : Z * Z) : M (Z * Z) :=
  match user_ids with
  | [] => mret counts
  | user_id :: rest =>
      counts' ← high_load_events randint user_id (seqZ 0 events_per_user)
                  0 counts;
      high_load_users randint rest events_per_user counts'
  end.

(** How the function ends.  The log lines after the loops divide by
    [total_events] (line 102) and by the elapsed time (line 104); the
    elapsed time is known here only as zero or not.  The texts logged are
    left out; the values they print are kept in [HighLoadDone]. *)
Inductive HighLoadOutcome :=
| HighLoadDone (processed_count throttled_count active_keys : Z)
| ZeroDivisionError (line : nat)
| HighLoadRaised (e : Exn).

Definition high_load_example (randint : Z → Z → Z) (total_time_is_zero : bool)
    (num_users events_per_user : Z) : HighLoadOutcome :=
  match high_load_users randint (seqZ 0 num_users) events_per_user (0, 0)
          (fresh 5) with
  | Raised e _ _ => HighLoadRaised e
  | Returned (processed_count, throttled_count) throttler _ =>
      let total_events := num_users * events_per_user in
      if total_events =? 0 then ZeroDivisionError 102
      else if total_time_is_zero then ZeroDivisionError 104
      else match get_key_count throttler with
           | Returned active_keys _ _ =>
               HighLoadDone processed_count throttled_count active_keys
           | Raised e _ _ => HighLoadRaised e
           end
  end.

(** ** logger.py

    [setup_logger] configures one logger of the [logging] module.  The
    module's table of loggers is a [gmap] from the name a logger is filed
    under to its level and handlers.  What the function asks of the
    operating system is collected as a list of requests; what the platform
    answers ([os.path.exists], [os.path.join], and whether an ancestor of a
    logger has handlers) is a parameter. *)

(** Level numbers of [logging]. *)
Definition logging_NOTSET : Z := 0.
Definition logging_DEBUG : Z := 10.
Definition logging_INFO : Z := 20.
Definition logging_WARNING : Z := 30.

Definition levelno (l : LogLevel) : Z :=
  match l with DEBUG => logging_DEBUG | INFO => logging_INFO end.

(** The logging settings of config.py. *)
Definition LOG_LEVEL : Z := logging_INFO.
Definition LOG_TO_CONSOLE : bool := true.
Definition LOG_TO_FILE : bool := false.
Definition LOG_DIRECTORY : string := "logs".
Definition MAX_LOG_SIZE_MB : Z := 10.
Definition LOG_BACKUP_COUNT : Z := 5.

Definition LOG_FORMAT : string :=
  "%(asctime)s - %(name)s - %(levelname)s - %(message)s".

Inductive Handler :=
| StreamHandler (formatter : string)
| RotatingFileHandler (filename : string) (maxBytes backupCount : Z)
    (formatter : string).

Record Logger := mkLogger {
  logger_level : Z;
  logger_handlers : list Handler
}.

Inductive OsCall :=
| OsMakedirs (path : string)
| OsOpenAppend (path : string).

Record Platform := mkPlatform {
  os_path_exists : string → bool;
  os_path_join : string → string → string;
  ancestors_have_handlers : gmap string Logger → string → bool
}.

(** The name a logger is filed under: the empty name is the root logger,
    whose name is "root". *)
Definition logger_key (name : string) : string :=
  if decide (name = "") then "root" else name.

(** [logging.getLogger(name)]: the logger filed under the name, made with
    no handler when there is none yet. *)
Definition getLogger (name : string) (loggers : gmap string Logger) : Logger :=
  default (mkLogger logging_NOTSET []) (loggers !! logger_key name).

(** [logger.hasHandlers()]: this logger has a handler, or an ancestor it
    propagates to has one. *)
Definition hasHandlers (pf : Platform) (loggers : gmap string Logger)
    (name : string) (logger : Logger) : bool :=
  bool_decide (logger_handlers logger ≠ [])
  || ancestors_have_handlers pf loggers (logger_key name).

Definition setLevel (log_level : Z) (logger : Logger) : Logger :=
  mkLogger log_level (logger_handlers logger).

Definition handlers_clear (logger : Logger) : Logger :=
  mkLogger (logger_level logger) [].

Definition addHandler (h : Handler) (logger : Logger) : Logger :=
  mkLogger (logger_level logger) (logger_handlers logger ++ [h]).

(** The result is the table with the configured logger filed in it, and the
    requests made to the operating system, in order. *)
Definition setup_logger (pf : Platform) (logger_name : string) (log_level : Z)
    (log_to_console log_to_file : bool) (log_dir : string)
    (log_file : option string) (max_file_size_mb backup_count : Z)
    (loggers : gmap string Logger) : gmap string Logger * list OsCall :=
  let logger := getLogger logger_name loggers in
  let logger := setLevel log_level logger in
  let logger :=
    if hasHandlers pf loggers logger_name logger then handlers_clear logger
    else logger in
  let formatter := LOG_FORMAT in
  let logger :=
    if log_to_console then addHandler (StreamHandler formatter) logger
    else logger in
  let '(logger, os) :=
    if log_to_file then
      let made :=
        if negb (os_path_exists pf log_dir) then [OsMakedirs log_dir]
        else [] in
      let log_file :=
        match log_file with
        | None => logger_name +:+ ".log"
        | Some f => f
        end in
      let file_path := os_path_join pf log_dir log_file in
      (addHandler
         (RotatingFileHandler file_path (max_file_size_mb * 1024 * 1024)
            backup_count formatter)
         logger,
       made ++ [OsOpenAppend file_path])
    else (logger, []) in
  (<[logger_key logger_name := logger]> loggers, os).

Definition get_app_logger (pf : Platform) (log_to_file : bool)
    (loggers : gmap string Logger) : gmap string Logger * list OsCall :=
  setup_logger pf "event_throttler" LOG_LEVEL LOG_TO_CONSOLE log_to_file
    LOG_DIRECTORY None MAX_LOG_SIZE_MB LOG_BACKUP_COUNT loggers.

Definition get_module_logger (pf : Platform) (module_name : string)
    (log_to_file : bool) (loggers : gmap string Logger)
  : gmap string Logger * list OsCall :=
  setup_logger pf ("event_throttler." +:+ module_name) LOG_LEVEL
    LOG_TO_CONSOLE log_to_file LOG_DIRECTORY None MAX_LOG_SIZE_MB
    LOG_BACKUP_COUNT loggers.

(** The handlers [setup_logger] installs for its arguments. *)
Definition installed_handlers (pf : Platform) (logger_name : string)
    (log_to_console log_to_file : bool) (log_dir : string)
    (log_file : option string) (max_file_size_mb backup_count : Z)
  : list Handler :=
  (if log_to_console then [StreamHandler LOG_FORMAT] else [])
  ++ (if log_to_file then
        [RotatingFileHandler
           (os_path_join pf log_dir
              (default (logger_name +:+ ".log") log_file))
           (max_file_size_mb * 1024 * 1024) backup_count LOG_FORMAT]
      else []).

(** A record passes a logger when its level number reaches the logger's
    level (a level other than NOTSET, as [setup_logger] is given here). *)
Definition passes (logger : Logger) (r : LogRecord) : bool :=
  bool_decide (logger_level logger ≤ levelno r.1).

(** A platform and a table used as concrete inputs. *)
Definition posix_like : Platform :=
  mkPlatform (λ p, bool_decide (p = "logs")%string)
             (λ d f, d +:+ "/" +:+ f)
             (λ _ _, false).

Definition cluttered_loggers : gmap string Logger :=
  {[ "event_throttler.throttler"%string :=
       mkLogger logging_WARNING
         [StreamHandler "old"; StreamHandler "old"; StreamHandler "older"];
     "event_throttler"%string := mkLogger logging_DEBUG [StreamHandler "app"] ]}.

(** * Equations of the methods *)

Section Equations.
Variable self : EventThrottler.

Let w := _window self.
Let m := _last_processed_timestamps self.

Lemma with_lock_depth_restore :
  with_lock_depth (Nat.pred (S (_lock self))) self = self.
Proof. by destruct self. Qed.

Lemma should_process_eq timestamp event_id key :
  should_process timestamp event_id key self =
  match m !! key with
  | None =>
      Returned true (with_timestamps (<[key := timestamp]> m) self)
        [(DEBUG, MsgProcessingNewKey key event_id timestamp)]
  | Some last =>
      if timestamp - last >=? w then
        Returned true (with_timestamps (<[key := timestamp]> m) self)
          [(DEBUG, MsgProcessingAfterWindow key event_id (timestamp - last))]
      else
        Returned false self
          [(DEBUG, MsgThrottling key event_id (timestamp - last) w)]
  end.
Proof.
  subst w m. destruct self as [w0 m0 n0].
  unfold should_process, with_lock, mbind, M_bind, acquire, dict_contains.
  cbn. destruct (m0 !! key) as [last|] eqn:Hk.
  - cbn. unfold dict_getitem. cbn. rewrite Hk. cbn.
    destruct (timestamp - last >=? w0); reflexivity.
  - reflexivity.
Qed.

Lemma update_window_eq new_window :
  update_window new_window self =
  Returned tt (with_window new_window self)
    [(INFO, MsgWindowUpdated w new_window)].
Proof. subst w. by destruct self. Qed.

Lemma get_window_eq : get_window self = Returned w self [].
Proof. subst w. by destruct self. Qed.

Lemma clear_eq :
  clear self = Returned tt (with_timestamps ∅ self) [(INFO, MsgCleared)].
Proof. by destruct self. Qed.

Lemma get_key_count_eq :
  get_key_count self = Returned (Z.of_nat (size m)) self [].
Proof. subst m. by destruct self. Qed.
End Equations.

(** * Outcomes through bind *)

Section Bind.
Context {A B : Type}.

Lemma final_add_log (l : list LogRecord) (o : Outcome A) :
  final (add_log l o) = final o.
Proof. by destruct o. Qed.

Lemma returned_add_log (l : list LogRecord) (o : Outcome A) :
  returned (add_log l o) = returned o.
Proof. by destruct o. Qed.

Lemma bind_Returned (mx : M A) (f : A → M B) self a self' l :
  mx self = Returned a self' l →
  (mx ≫= f) self = add_log l (f a self').
Proof. unfold mbind, M_bind. by intros ->. Qed.

Lemma is_Returned_add_log (l : list LogRecord) (o : Outcome A) :
  is_Returned o → is_Returned (add_log l o).
Proof. intros (a & s & l' & ->). cbn. by eexists _, _, _. Qed.

Lemma is_Returned_returned (o : Outcome A) :
  is_Returned o ↔ is_Some (returned o).
Proof.
  split.
  - by intros (a & s & l & ->).
  - destruct o as [a s l|e s l]; [by eexists _, _, _ | by intros [? [=]]].
Qed.
End Bind.

(** * What each call does to the instance *)

(** Rewrite a [should_process] call on key [k] with its equation and split
    on the three paths of the method. *)
Ltac should_process_paths k :=
  rewrite should_process_eq;
  destruct (_ !! k) as [?last|] eqn:?Hk; [destruct (_ >=? _) eqn:?Hge|].

Lemma should_process_returns self t e k :
  is_Returned (should_process t e k self).
Proof.
  should_process_paths k; by eexists _, _, _.
Qed.

Lemma call_returns c self : is_Returned (call c self).
Proof.
  destruct c as [t e k|nw| | |]; unfold call, mbind, M_bind.
  - destruct (should_process_returns self t e k) as (b & s & l & ->).
    by apply is_Returned_add_log; eexists _, _, _.
  - rewrite update_window_eq. by eexists _, _, _.
  - rewrite get_window_eq. by eexists _, _, _.
  - rewrite clear_eq. by eexists _, _, _.
  - rewrite get_key_count_eq. by eexists _, _, _.
Qed.

Lemma calls_cons c cs self :
  calls (c :: cs) self =
  (v ← call c; vs ← calls cs; mret (v :: vs)) self.
Proof. reflexivity. Qed.

Lemma after_cons c cs self :
  after (c :: cs) self = after cs (final (call c self)).
Proof.
  unfold after. rewrite calls_cons.
  destruct (call_returns c self) as (v & s & l & Hc).
  rewrite (bind_Returned _ _ _ _ _ _ Hc), final_add_log, Hc. cbn.
  unfold mbind, M_bind. destruct (calls cs s); reflexivity.
Qed.

Lemma calls_returns cs self : is_Returned (calls cs self).
Proof.
  revert self. induction cs as [|c cs IH]; intros self.
  - by eexists _, _, _.
  - rewrite calls_cons.
    destruct (call_returns c self) as (v & s & l & Hc).
    rewrite (bind_Returned _ _ _ _ _ _ Hc). apply is_Returned_add_log.
    destruct (IH s) as (vs & s' & l' & Hcs).
    rewrite (bind_Returned _ _ _ _ _ _ Hcs). apply is_Returned_add_log.
    by eexists _, _, _.
Qed.

Lemma final_should_process_size self t e k :
  (size (_last_processed_timestamps self)
   ≤ size (_last_processed_timestamps (final (should_process t e k self))))%nat.
Proof.
  should_process_paths k; cbn.
  - by rewrite map_size_insert_Some.
  - done.
  - rewrite (map_size_insert_None _ _ _ Hk). lia.
Qed.

Lemma final_call_size c self :
  is_clear c = false →
  (size (_last_processed_timestamps self)
   ≤ size (_last_processed_timestamps (final (call c self))))%nat.
Proof.
  destruct c as [t e k|nw| | |]; intros Hc; try discriminate;
    unfold call, mbind, M_bind.
  - pose proof (final_should_process_size self t e k) as Hs.
    destruct (should_process t e k self); exact Hs.
  - by rewrite update_window_eq.
  - by rewrite get_window_eq.
  - by rewrite get_key_count_eq.
Qed.

Lemma after_size cs self :
  forallb (λ c, negb (is_clear c)) cs = true →
  (size (_last_processed_timestamps self)
   ≤ size (_last_processed_timestamps (after cs self)))%nat.
Proof.
  revert self. induction cs as [|c cs IH]; intros self Hcs.
  - done.
  - cbn in Hcs. apply andb_true_iff in Hcs as [Hc Hcs].
    apply negb_true_iff in Hc. rewrite after_cons.
    etrans; [by apply final_call_size | by apply IH].
Qed.

(** * The throttling decision *)

(** C1: [should_process] follows the four-step rule.  When [key] has no
    entry the call returns [True] and records the timestamp.  When the
    entry is [last], the difference [timestamp - last] is an integer
    subtraction that may be negative; if it is at least the window the call
    returns [True] and overwrites the entry with [timestamp] (whether or
    not [timestamp] is below [last]); if it is below the window the call
    returns [False] and the instance is left as it was. *)
Theorem should_process_four_steps
    (self : EventThrottler) (timestamp : Z) (event_id key : string) :
  let m := _last_processed_timestamps self in
  let out := should_process timestamp event_id key self in
  let recorded := with_timestamps (<[key := timestamp]> m) self in
  (m !! key = None → returned out = Some true ∧ final out = recorded) ∧
  (∀ last, m !! key = Some last → timestamp - last >= _window self →
     returned out = Some true ∧ final out = recorded) ∧
  (∀ last, m !! key = Some last → timestamp - last < _window self →
     returned out = Some false ∧ final out = self).
Proof.
  intros m out recorded. subst m out recorded. rewrite should_process_eq.
  split; [|split].
  - by intros ->.
  - intros last -> Hge.
    destruct (Z.geb_spec (timestamp - last) (_window self)); [done | lia].
  - intros last -> Hlt.
    destruct (Z.geb_spec (timestamp - last) (_window self)); [lia | done].
Qed.

(** An accepted event whose timestamp (96) is below the stored one (100)
    overwrites it: the window is -5 and the difference -4. *)
Lemma should_process_four_steps_witness :
  returned (should_process 96 "e2" "userA" userA_at_100_window_minus5)
    = Some true ∧
  final (should_process 96 "e2" "userA" userA_at_100_window_minus5)
    = mkEventThrottler (-5) {[ "userA"%string := 96 ]} 0.
Proof.
  destruct (should_process_four_steps userA_at_100_window_minus5
              96 "e2" "userA") as (_ & Hge & _).
  destruct (Hge 100) as [Hr Hf]; [reflexivity | by vm_compute |].
  split; [exact Hr | rewrite Hf; reflexivity].
Defined.

(** C2: for a key stored with timestamp [last], every [t] with
    [last <= t < last + window] is throttled and every [t] with
    [t >= last + window] is accepted, so a difference equal to the window
    is accepted.  With window 10 on a new instance the calls at 10, 20, 29
    and 31 for "userA" return True, True, False, True. *)
Theorem window_boundary :
  (∀ (self : EventThrottler) (key : string) (last : Z),
     _last_processed_timestamps self !! key = Some last →
     (∀ t e, last ≤ t < last + _window self →
        returned (should_process t e key self) = Some false) ∧
     (∀ t e, t >= last + _window self →
        returned (should_process t e key self) = Some true) ∧
     (∀ t e, t - last = _window self →
        returned (should_process t e key self) = Some true)) ∧
  returned
    (calls [CallShouldProcess 10 "e1" "userA";
            CallShouldProcess 20 "e2" "userA";
            CallShouldProcess 29 "e3" "userA";
            CallShouldProcess 31 "e4" "userA"] (fresh 10))
  = Some [VBool true; VBool true; VBool false; VBool true].
Proof.
  split; [|reflexivity].
  intros self key last Hk.
  repeat split; intros t e Ht; rewrite should_process_eq, Hk;
    destruct (Z.geb_spec (t - last) (_window self)); done || lia.
Qed.

Lemma window_boundary_witness :
  returned (should_process 19 "e2" "userA" userA_at_10_window_10) = Some false ∧
  returned (should_process 20 "e2" "userA" userA_at_10_window_10) = Some true ∧
  returned (should_process 21 "e2" "userA" userA_at_10_window_10) = Some true.
Proof.
  destruct window_boundary as [Hall _].
  destruct (Hall userA_at_10_window_10 "userA"%string 10)
    as (Hin & Hout & Heq); [reflexivity|].
  split; [by apply Hin; vm_compute | split].
  - apply Heq. reflexivity.
  - apply Hout. by vm_compute.
Defined.

(** * Frame properties of a decision *)

Lemma final_should_process_other self t e k k' :
  k' ≠ k →
  _last_processed_timestamps (final (should_process t e k self)) !! k'
  = _last_processed_timestamps self !! k'.
Proof.
  intros Hne. should_process_paths k; cbn; by rewrite ?lookup_insert_ne.
Qed.

Lemma final_should_process_window self t e k :
  _window (final (should_process t e k self)) = _window self.
Proof.
  by should_process_paths k.
Qed.

Lemma final_should_process_lock self t e k :
  _lock (final (should_process t e k self)) = _lock self.
Proof.
  by should_process_paths k.
Qed.

(** C3: a call of [should_process] for [key] changes at most the entry of
    [key]: the window, the lock depth and every other key's entry are as
    before.  A call that returns [False] leaves the whole instance as it
    was, so a later call for that key gives what it would have given
    without it.  A call for one key changes neither what a later call for
    another key returns nor what that later call stores. *)
Theorem should_process_frame
    (self : EventThrottler) (t : Z) (e key : string) :
  let out := should_process t e key self in
  _window (final out) = _window self ∧
  _lock (final out) = _lock self ∧
  (∀ key', key' ≠ key →
     _last_processed_timestamps (final out) !! key'
     = _last_processed_timestamps self !! key') ∧
  (returned out = Some false →
     final out = self ∧
     ∀ t' e', should_process t' e' key (final out)
              = should_process t' e' key self) ∧
  (∀ key' t' e', key' ≠ key →
     returned (should_process t' e' key' (final out))
     = returned (should_process t' e' key' self) ∧
     _last_processed_timestamps (final (should_process t' e' key' (final out)))
       !! key'
     = _last_processed_timestamps (final (should_process t' e' key' self))
       !! key').
Proof.
  intros out. subst out.
  split; [apply final_should_process_window|].
  split; [apply final_should_process_lock|].
  split; [intros key' Hne; by apply final_should_process_other|].
  split.
  - assert (returned (should_process t e key self) = Some false →
            final (should_process t e key self) = self) as Hinert.
    { by should_process_paths key. }
    intros Hf. split; [by apply Hinert|].
    intros t' e'. by rewrite (Hinert Hf).
  - intros key' t' e' Hne.
    rewrite !(should_process_eq _ t' e' key').
    rewrite final_should_process_other, final_should_process_window by done.
    destruct (_ !! key') as [last|]; [destruct (_ >=? _)|]; cbn;
      rewrite ?lookup_insert_eq, ?final_should_process_other; done.
Qed.

Lemma should_process_frame_witness :
  final (should_process 20 "e5" "userB" two_users_window_10)
    = two_users_window_10 ∧
  returned (should_process 12 "e3" "userA"
              (final (should_process 25 "e5" "userB" two_users_window_10)))
    = returned (should_process 12 "e3" "userA" two_users_window_10).
Proof.
  split.
  - destruct (should_process_frame two_users_window_10 20 "e5" "userB")
      as (_ & _ & _ & Hinert & _).
    apply Hinert. reflexivity.
  - destruct (should_process_frame two_users_window_10 25 "e5" "userB")
      as (_ & _ & _ & _ & Hother).
    apply Hother. discriminate.
Defined.

(** * Clearing, counting and the window *)

(** C4: [clear] empties the dictionary and changes nothing else.  After it
    [get_key_count] returns 0, the window is the one before, and the next
    [should_process] call returns [True] for every key and timestamp. *)
Theorem clear_resets (self : EventThrottler) :
  final (clear self) = with_timestamps ∅ self ∧
  _last_processed_timestamps (final (clear self)) = ∅ ∧
  _window (final (clear self)) = _window self ∧
  returned (get_window (final (clear self))) = Some (_window self) ∧
  returned (get_key_count (final (clear self))) = Some 0 ∧
  ∀ t e key, returned (should_process t e key (final (clear self))) = Some true.
Proof.
  rewrite clear_eq. cbn.
  rewrite get_window_eq, get_key_count_eq. cbn.
  do 5 (split; [done|]).
  intros t e key. rewrite should_process_eq. cbn. by rewrite lookup_empty.
Qed.

Lemma get_key_count_after_new_key self t e k :
  _last_processed_timestamps self !! k = None →
  size (_last_processed_timestamps (final (should_process t e k self)))
  = S (size (_last_processed_timestamps self)).
Proof.
  intros Hk. rewrite should_process_eq, Hk. cbn.
  by apply map_size_insert_None.
Qed.

Lemma get_key_count_after_seen_key self t e k :
  is_Some (_last_processed_timestamps self !! k) →
  size (_last_processed_timestamps (final (should_process t e k self)))
  = size (_last_processed_timestamps self).
Proof.
  intros [last Hk]. rewrite should_process_eq, Hk.
  destruct (_ >=? _); cbn; [|done].
  apply map_size_insert_Some. by rewrite Hk.
Qed.

(** C5: [get_key_count] returns 0 on a new instance, one more after a
    [should_process] call for a key without an entry, the same after a call
    for a key with an entry, and 0 after [clear].  Over any sequence of
    calls without [clear] the count does not decrease, so a positive count
    stays positive. *)
Theorem get_key_count_grows :
  (∀ window, returned (get_key_count (fresh window)) = Some 0) ∧
  (∀ self t e key n,
     _last_processed_timestamps self !! key = None →
     returned (get_key_count self) = Some n →
     returned (get_key_count (final (should_process t e key self)))
     = Some (n + 1)) ∧
  (∀ self t e key n,
     is_Some (_last_processed_timestamps self !! key) →
     returned (get_key_count self) = Some n →
     returned (get_key_count (final (should_process t e key self)))
     = Some n) ∧
  (∀ self, returned (get_key_count (final (clear self))) = Some 0) ∧
  (∀ self cs,
     forallb (λ c, negb (is_clear c)) cs = true →
     is_Returned (calls cs self) ∧
     ∃ n n', returned (get_key_count self) = Some n ∧
             returned (get_key_count (after cs self)) = Some n' ∧
             n ≤ n' ∧ (0 < n → 0 < n')).
Proof.
  split; [done|]. split; [|split; [|split; [|intros self cs Hcs; split]]].
  - intros self t e key n Hk. rewrite !get_key_count_eq. cbn.
    rewrite (get_key_count_after_new_key _ _ _ _ Hk). intros [= <-].
    f_equal. lia.
  - intros self t e key n Hk. rewrite !get_key_count_eq. cbn.
    by rewrite (get_key_count_after_seen_key _ _ _ _ Hk).
  - intros self. by rewrite clear_eq, get_key_count_eq.
  - apply calls_returns.
  - rewrite !get_key_count_eq. cbn.
    pose proof (after_size cs self Hcs) as Hsize.
    eexists _, _. split; [done|]. split; [done|]. lia.
Qed.

Lemma get_key_count_grows_witness :
  returned (get_key_count
              (final (should_process 3 "e3" "userC" two_users_window_10)))
    = Some 3 ∧
  returned (get_key_count
              (final (should_process 30 "e6" "userA" two_users_window_10)))
    = Some 2.
Proof.
  destruct get_key_count_grows as (_ & Hnew & Hseen & _).
  split.
  - apply (Hnew two_users_window_10 3 "e3"%string "userC"%string 2);
      reflexivity.
  - apply (Hseen two_users_window_10 30 "e6"%string "userA"%string 2);
      [by eexists | reflexivity].
Defined.

(** C6: [update_window] replaces the window and nothing else (the
    dictionary and the lock depth are as before), [get_window] returns the
    window and leaves the instance as it was, and [get_window] right after
    [update_window w] returns [w] for every integer [w].  A decision after
    the update is the decision of the same instance with window [w]. *)
Theorem update_window_get_window (self : EventThrottler) (w : Z) :
  returned (update_window w self) = Some tt ∧
  final (update_window w self) = with_window w self ∧
  _last_processed_timestamps (final (update_window w self))
    = _last_processed_timestamps self ∧
  returned (get_window self) = Some (_window self) ∧
  final (get_window self) = self ∧
  returned (get_window (final (update_window w self))) = Some w ∧
  ∀ t e key,
    should_process t e key (final (update_window w self))
    = should_process t e key (with_window w self).
Proof.
  rewrite update_window_eq, !get_window_eq. by repeat split.
Qed.

(** C7: two [should_process] calls that differ only in [event_id] return
    the same boolean and leave the same instance; [event_id] reaches the
    log records only. *)
Theorem event_id_irrelevant
    (self : EventThrottler) (t : Z) (e1 e2 key : string) :
  returned (should_process t e1 key self)
    = returned (should_process t e2 key self) ∧
  final (should_process t e1 key self)
    = final (should_process t e2 key self).
Proof.
  rewrite (should_process_eq _ t e2). by should_process_paths key.
Qed.


(** C10: a window that is zero or negative does not accept every event.
    Whenever [timestamp - last] is below the window the call returns
    [False] and the instance is unchanged; with window -5 and "userA"
    stored at 100, the call at 90 is throttled. *)
Theorem nonpositive_window_can_throttle :
  (∀ self t e key last,
     _window self ≤ 0 →
     _last_processed_timestamps self !! key = Some last →
     t - last < _window self →
     returned (should_process t e key self) = Some false ∧
     final (should_process t e key self) = self) ∧
  (∃ self t e key,
     _window self ≤ 0 ∧
     returned (should_process t e key self) = Some false) ∧
  _window userA_at_100_window_minus5 = -5 ∧
  _last_processed_timestamps userA_at_100_window_minus5 !! "userA"%string
    = Some 100 ∧
  returned (should_process 90 "e2" "userA" userA_at_100_window_minus5)
    = Some false ∧
  final (should_process 90 "e2" "userA" userA_at_100_window_minus5)
    = userA_at_100_window_minus5.
Proof.
  split; [|split; [|by repeat split]].
  - intros self t e key last _ Hk Hlt. rewrite should_process_eq, Hk.
    destruct (Z.geb_spec (t - last) (_window self)); [lia | done].
  - exists userA_at_100_window_minus5, 90, "e2"%string, "userA"%string.
    by split.
Qed.

Lemma nonpositive_window_can_throttle_witness :
  returned (should_process 99 "e2" "userA"
              (final (update_window 0 userA_at_100_window_minus5)))
    = Some false.
Proof.
  destruct nonpositive_window_can_throttle as (Hall & _).
  apply (Hall _ 99 "e2"%string "userA"%string 100); by vm_compute.
Defined.

(** * Histories of calls *)

Lemma call_should_process_eq t e k self :
  call (CallShouldProcess t e k) self =
  match _last_processed_timestamps self !! k with
  | None =>
      Returned (VBool true)
        (with_timestamps (<[k := t]> (_last_processed_timestamps self)) self)
        [(DEBUG, MsgProcessingNewKey k e t)]
  | Some last =>
      if t - last >=? _window self then
        Returned (VBool true)
          (with_timestamps (<[k := t]> (_last_processed_timestamps self)) self)
          [(DEBUG, MsgProcessingAfterWindow k e (t - last))]
      else
        Returned (VBool false) self
          [(DEBUG, MsgThrottling k e (t - last) (_window self))]
  end.
Proof.
  unfold call, mbind, M_bind. by should_process_paths k.
Qed.

Lemma call_update_window_eq w self :
  call (CallUpdateWindow w) self =
  Returned VNone (with_window w self)
    [(INFO, MsgWindowUpdated (_window self) w)].
Proof. unfold call, mbind, M_bind. by rewrite update_window_eq. Qed.

Lemma call_get_window_eq self :
  call CallGetWindow self = Returned (VInt (_window self)) self [].
Proof. unfold call, mbind, M_bind. by rewrite get_window_eq. Qed.

Lemma call_clear_eq self :
  call CallClear self =
  Returned VNone (with_timestamps ∅ self) [(INFO, MsgCleared)].
Proof. unfold call, mbind, M_bind. by rewrite clear_eq. Qed.

Lemma call_get_key_count_eq self :
  call CallGetKeyCount self =
  Returned (VInt (Z.of_nat (size (_last_processed_timestamps self)))) self [].
Proof. unfold call, mbind, M_bind. by rewrite get_key_count_eq. Qed.

(** Rewrite one call with its equation and split on its paths. *)
Ltac call_paths c self :=
  let t := fresh "t" in
  let e := fresh "e" in
  let k := fresh "k" in
  destruct c as [t e k|?nw| | |];
  [ rewrite (call_should_process_eq t e k self);
    destruct (_last_processed_timestamps self !! k) as [?last|] eqn:?Hk;
    [destruct (t - _ >=? _window self) eqn:?Hge|]
  | rewrite (call_update_window_eq _ self)
  | rewrite (call_get_window_eq self)
  | rewrite (call_clear_eq self)
  | rewrite (call_get_key_count_eq self) ].

Lemma decisions_cons key c cs self :
  decisions key (c :: cs) self =
  option_list (decision key c (returned (call c self)))
  ++ decisions key cs (final (call c self)).
Proof. reflexivity. Qed.

Lemma accepted_cons key c cs self :
  accepted key (c :: cs) self =
  match decision key c (returned (call c self)) with
  | Some (t, true) => [t]
  | _ => []
  end ++ accepted key cs (final (call c self)).
Proof.
  unfold accepted. rewrite decisions_cons, omap_app.
  by destruct (decision _ _ _) as [[t []]|].
Qed.

Lemma last_app_cons {A} (l1 l2 : list A) x :
  last (l1 ++ x :: l2) = last (x :: l2).
Proof.
  induction l1 as [|y l1 IH]; [done|].
  cbn [app]. rewrite <-IH. by destruct l1.
Qed.

(** The timestamp stored for a key after a sequence without [clear] is the
    timestamp of the last accepted [should_process] call on that key, or
    the one stored before when the sequence accepted none. *)
Theorem stored_is_last_accepted cs self key :
  forallb (λ c, negb (is_clear c)) cs = true →
  _last_processed_timestamps (after cs self) !! key
  = last (option_list (_last_processed_timestamps self !! key)
          ++ accepted key cs self).
Proof.
  revert self. induction cs as [|c cs IH]; intros self Hcs.
  - unfold after, accepted. cbn. rewrite app_nil_r.
    by destruct (_ !! key).
  - cbn in Hcs. apply andb_true_iff in Hcs as [Hc Hcs].
    rewrite after_cons, accepted_cons, (IH _ Hcs). clear IH.
    call_paths c self; try discriminate; cbn; try done.
    + case_bool_decide as Hkey; cbn.
      * subst. rewrite lookup_insert_eq, Hk. done.
      * by rewrite lookup_insert_ne.
    + by case_bool_decide.
    + case_bool_decide as Hkey; cbn.
      * subst. rewrite lookup_insert_eq, Hk. done.
      * by rewrite lookup_insert_ne.
Qed.

Lemma final_call_quiet_window c self :
  is_quiet c = true → _window (final (call c self)) = _window self.
Proof. call_paths c self; by intros. Qed.

Lemma gaps_at_least_sorted w l :
  0 < w → gaps_at_least w l → StronglySorted Z.lt l.
Proof.
  intros Hw Hl. apply Sorted_StronglySorted; [intros x y z; lia|].
  induction l as [|a l IH]; [constructor|].
  destruct Hl as [Ha Hl]. constructor; [by apply IH|].
  destruct l as [|b l]; constructor. lia.
Qed.

(** Over a sequence that neither clears nor changes the window, the
    timestamp stored for a key at the start followed by the timestamps then
    accepted for it are pairwise at least one window apart.  With a
    positive window they therefore strictly increase: an event older than
    the last accepted one is never accepted. *)
Theorem accepted_gaps cs self key :
  forallb is_quiet cs = true →
  gaps_at_least (_window self)
    (option_list (_last_processed_timestamps self !! key)
     ++ accepted key cs self) ∧
  (0 < _window self →
   StronglySorted Z.lt
     (option_list (_last_processed_timestamps self !! key)
      ++ accepted key cs self)).
Proof.
  intros Hcs.
  assert (gaps_at_least (_window self)
            (option_list (_last_processed_timestamps self !! key)
             ++ accepted key cs self)) as Hgaps;
    [|split; [done|intros Hw; by eapply gaps_at_least_sorted]].
  revert self Hcs. induction cs as [|c cs IH]; intros self Hcs.
  - unfold accepted. cbn. rewrite app_nil_r. by destruct (_ !! key).
  - cbn in Hcs. apply andb_true_iff in Hcs as [Hc Hcs].
    specialize (IH (final (call c self)) Hcs).
    rewrite (final_call_quiet_window _ _ Hc) in IH.
    rewrite accepted_cons. revert IH.
    call_paths c self; try discriminate; cbn; try done.
    + case_bool_decide as Hkey; cbn.
      * subst. rewrite lookup_insert_eq, Hk. cbn. intros IH.
        split; [|done]. apply Z.geb_le in Hge. lia.
      * by rewrite lookup_insert_ne.
    + by case_bool_decide.
    + case_bool_decide as Hkey; cbn.
      * subst. by rewrite lookup_insert_eq, Hk.
      * by rewrite lookup_insert_ne.
Qed.

Lemma accepted_gaps_witness :
  gaps_at_least 10 [1; 12; 30] ∧ StronglySorted Z.lt [1; 12; 30].
Proof.
  destruct (accepted_gaps userA_history (fresh 10) "userA" eq_refl)
    as [Hgaps Hsorted].
  split; [exact Hgaps | exact (Hsorted eq_refl)].
Defined.

Lemma stored_is_last_accepted_witness :
  _last_processed_timestamps (after userA_history (fresh 10))
    !! "userA"%string = Some 30.
Proof.
  rewrite (stored_is_last_accepted userA_history (fresh 10) "userA" eq_refl).
  reflexivity.
Defined.

(** * Which keys are tracked *)

(** Set goals by their elements. *)
Ltac by_elements := set_unfold; intuition (subst; auto).

Lemma keys_of_cons c cs :
  keys_of (c :: cs) =
  match c with CallShouldProcess _ _ k => [k] | _ => [] end ++ keys_of cs.
Proof. by destruct c. Qed.

(** Over a sequence without [clear] the tracked keys are the ones tracked
    before together with the ones the [should_process] calls name.  On a
    new instance [get_key_count] then returns the number of distinct keys
    named, which is at most the number of calls. *)
Theorem tracked_keys cs :
  forallb (λ c, negb (is_clear c)) cs = true →
  (∀ self,
     dom (_last_processed_timestamps (after cs self))
     = dom (_last_processed_timestamps self) ∪ list_to_set (keys_of cs)) ∧
  (∀ window,
     returned (get_key_count (after cs (fresh window)))
     = Some (Z.of_nat (size (list_to_set (keys_of cs) : gset string)))) ∧
  (size (list_to_set (keys_of cs) : gset string) ≤ length cs)%nat.
Proof.
  intros Hcs.
  assert (∀ self,
    dom (_last_processed_timestamps (after cs self))
    = dom (_last_processed_timestamps self) ∪ list_to_set (keys_of cs))
    as Hdom.
  { induction cs as [|c cs IH]; intros self.
    - unfold after. cbn. by_elements.
    - cbn in Hcs. apply andb_true_iff in Hcs as [Hc Hcs].
      rewrite after_cons, (IH Hcs), keys_of_cons. clear IH.
      call_paths c self; try discriminate; cbn; rewrite ?dom_insert_L.
      + apply (elem_of_dom_2 (D := gset string)) in Hk. by_elements.
      + apply (elem_of_dom_2 (D := gset string)) in Hk. by_elements.
      + by_elements.
      + by_elements.
      + by_elements.
      + by_elements. }
  split; [done|]. split.
  - intros window. rewrite get_key_count_eq. cbn.
    rewrite <-size_dom, Hdom. cbn.
    by rewrite dom_empty_L, (left_id_L ∅ (∪)).
  - clear. induction cs as [|c cs IH]; [done|].
    rewrite keys_of_cons. destruct c; cbn; try lia.
    rewrite size_union_alt, size_singleton.
    assert (size (list_to_set (keys_of cs) ∖ {[key]} : gset string)
            ≤ size (list_to_set (keys_of cs) : gset string))%nat
      by (apply subseteq_size; by_elements).
    lia.
Qed.

Lemma tracked_keys_witness :
  returned (get_key_count
    (after [CallShouldProcess 1 "e1" "userA"; CallShouldProcess 5 "e2" "userA";
            CallUpdateWindow 3; CallShouldProcess 15 "e4" "userB"]
       (fresh 10)))
  = Some 2.
Proof.
  destruct (tracked_keys
    [CallShouldProcess 1 "e1" "userA"; CallShouldProcess 5 "e2" "userA";
     CallUpdateWindow 3; CallShouldProcess 15 "e4" "userB"])
    as (_ & Hcount & _); [reflexivity|].
  rewrite Hcount. reflexivity.
Defined.

(** * Decisions for one key do not depend on the other keys *)

Lemma call_concerned c s1 s2 key :
  concerns key c = true →
  _window s1 = _window s2 →
  _last_processed_timestamps s1 !! key = _last_processed_timestamps s2 !! key →
  decision key c (returned (call c s1)) = decision key c (returned (call c s2)) ∧
  _window (final (call c s1)) = _window (final (call c s2)) ∧
  _last_processed_timestamps (final (call c s1)) !! key
  = _last_processed_timestamps (final (call c s2)) !! key.
Proof.
  intros Hc Hw Hm. destruct c as [t e k|nw| | |]; cbn in Hc.
  - apply bool_decide_eq_true in Hc as ->.
    rewrite !call_should_process_eq, <-Hm, <-Hw.
    destruct (_last_processed_timestamps s1 !! key) as [last|] eqn:Hs1;
      [destruct (_ >=? _)|]; cbn; rewrite ?lookup_insert_eq;
      (split; [done|split; congruence]).
  - by rewrite !call_update_window_eq.
  - by rewrite !call_get_window_eq.
  - by rewrite !call_clear_eq.
  - by rewrite !call_get_key_count_eq.
Qed.

Lemma call_unconcerned c self key :
  concerns key c = false →
  decision key c (returned (call c self)) = None ∧
  _window (final (call c self)) = _window self ∧
  _last_processed_timestamps (final (call c self)) !! key
  = _last_processed_timestamps self !! key.
Proof.
  intros Hc. destruct c as [t e k|nw| | |]; try discriminate. cbn in Hc.
  apply bool_decide_eq_false in Hc.
  rewrite call_should_process_eq.
  destruct (_last_processed_timestamps self !! k) as [last|];
    [destruct (_ >=? _)|]; cbn; rewrite ?lookup_insert_ne by done;
    by case_bool_decide.
Qed.

Lemma decisions_filter_agree key cs s1 s2 :
  _window s1 = _window s2 →
  _last_processed_timestamps s1 !! key = _last_processed_timestamps s2 !! key →
  decisions key cs s1 = decisions key (filter (concerns key) cs) s2 ∧
  _window (after cs s1) = _window (after (filter (concerns key) cs) s2) ∧
  _last_processed_timestamps (after cs s1) !! key
  = _last_processed_timestamps (after (filter (concerns key) cs) s2) !! key.
Proof.
  revert s1 s2. induction cs as [|c cs IH]; intros s1 s2 Hw Hm; [done|].
  destruct (concerns key c) eqn:Hc.
  - rewrite filter_cons_True by (by apply Is_true_true).
    destruct (call_concerned c s1 s2 key Hc Hw Hm) as (Hd & Hw' & Hm').
    rewrite !decisions_cons, !after_cons, Hd.
    destruct (IH _ _ Hw' Hm') as (-> & -> & ->). done.
  - rewrite filter_cons_False by (by apply Is_true_false).
    destruct (call_unconcerned c s1 key Hc) as (Hd & Hw' & Hm').
    rewrite decisions_cons, after_cons, Hd. cbn.
    apply IH; congruence.
Qed.

(** The decisions a sequence makes for a key, and the timestamp it leaves
    stored for that key, are those of the sequence with the
    [should_process] calls on every other key removed: events of other keys
    may be interleaved in any way without changing them. *)
Theorem decisions_ignore_other_keys cs self key :
  decisions key cs self = decisions key (filter (concerns key) cs) self ∧
  _last_processed_timestamps (after cs self) !! key
  = _last_processed_timestamps (after (filter (concerns key) cs) self) !! key.
Proof.
  by destruct (decisions_filter_agree key cs self self) as (? & ? & ?).
Qed.

(** The first [should_process] call on a key that is not tracked is
    accepted, whatever its timestamp, the window and the calls before it. *)
Theorem first_decision_accepted cs self key d :
  _last_processed_timestamps self !! key = None →
  head (decisions key cs self) = Some d →
  d.2 = true.
Proof.
  revert self. induction cs as [|c cs IH]; intros self Hm; [done|].
  rewrite decisions_cons.
  destruct (concerns key c) eqn:Hc.
  - destruct c as [t e k|nw| | |]; cbn in Hc.
    + apply bool_decide_eq_true in Hc as ->.
      rewrite call_should_process_eq, Hm. cbn.
      rewrite bool_decide_eq_true_2 by done. cbn. by intros [= <-].
    + rewrite call_update_window_eq. cbn. by apply IH.
    + rewrite call_get_window_eq. cbn. by apply IH.
    + rewrite call_clear_eq. cbn. by apply IH.
    + rewrite call_get_key_count_eq. cbn. by apply IH.
  - destruct (call_unconcerned c self key Hc) as (-> & _ & Hm').
    cbn. apply IH. by rewrite Hm'.
Qed.

Lemma first_decision_accepted_witness :
  head (decisions "userB"
          [CallShouldProcess 1 "e1" "userA"; CallUpdateWindow 1000;
           CallShouldProcess (-40) "e2" "userB"; CallShouldProcess 2 "e3" "userB"]
          (fresh 10))
  = Some (-40, true).
Proof.
  assert ((-40, true).2 = true) as _; [|reflexivity].
  apply (first_decision_accepted
    [CallShouldProcess 1 "e1" "userA"; CallUpdateWindow 1000;
     CallShouldProcess (-40) "e2" "userB"; CallShouldProcess 2 "e3" "userB"]
    (fresh 10) "userB" (-40, true)); reflexivity.
Defined.

(** * The unit tests *)

(** The four sequential tests of test_throttler.py make no failing
    assertion and raise nothing. *)
Theorem sequential_tests_pass :
  test_basic_throttling = TestOk ∧
  test_multiple_keys = TestOk ∧
  test_edge_cases = TestOk ∧
  test_update_window = TestOk.
Proof. by vm_compute. Qed.

Lemma interleaving_filter (key : string) (ls : list (list Call)) cs i l :
  Interleaving ls cs →
  ls !! i = Some l →
  Forall (λ c, concerns key c = true) l →
  (∀ j l', j ≠ i → ls !! j = Some l' →
           Forall (λ c, concerns key c = false) l') →
  filter (concerns key) cs = l.
Proof.
  intros Hi. revert l. induction Hi as [ls Hnil|j x l0 ls cs Hj Hi IH];
    intros l Hl Hown Hothers.
  - symmetry. by eapply (Forall_lookup_1 _ _ _ _ Hnil).
  - destruct (decide (j = i)) as [->|Hne].
    + rewrite Hl in Hj. injection Hj as ->.
      apply Forall_cons in Hown as [Hx Hown].
      rewrite filter_cons_True by (by apply Is_true_true). f_equal.
      apply IH; [|done|].
      * apply list_lookup_insert_eq. by eapply lookup_lt_Some.
      * intros j l' Hj' Hl'. rewrite list_lookup_insert_ne in Hl' by done.
        by eapply Hothers.
    + pose proof (Hothers j _ Hne Hj) as Hx.
      apply Forall_cons in Hx as [Hx Hl0].
      rewrite filter_cons_False by (by apply Is_true_false).
      apply IH; [by rewrite list_lookup_insert_ne|done|].
      intros j' l' Hj' Hl'. destruct (decide (j' = j)) as [->|Hne'].
      * rewrite list_lookup_insert_eq in Hl' by (by eapply lookup_lt_Some).
        by injection Hl' as <-.
      * rewrite list_lookup_insert_ne in Hl' by done. by eapply Hothers.
Qed.

Lemma filter_concerned key (l : list Call) :
  Forall (λ c, concerns key c = true) l → filter (concerns key) l = l.
Proof.
  induction 1 as [|c l Hc _ IH]; [done|].
  rewrite filter_cons_True by (by apply Is_true_true). by f_equal.
Qed.

(** When several callers each issue calls and only one of them names
    [key], the decisions for [key] under any interleaving are the ones that
    caller would get running alone. *)
Lemma interleaving_decisions key (ls : list (list Call)) cs i l self :
  Interleaving ls cs →
  ls !! i = Some l →
  Forall (λ c, concerns key c = true) l →
  (∀ j l', j ≠ i → ls !! j = Some l' →
           Forall (λ c, concerns key c = false) l') →
  decisions key cs self = decisions key l self.
Proof.
  intros Hi Hl Hown Hothers.
  destruct (decisions_filter_agree key cs self self) as [-> _]; [done..|].
  by rewrite (interleaving_filter key ls cs i l).
Qed.

(** [test_thread_safety]: under every schedule of the three workers' calls
    each user's results are True, False, True, False, so both counts the
    test asserts are 2. *)
Theorem thread_safety_under_every_schedule cs :
  Interleaving test_threads cs →
  user_results cs 1 = [true; false; true; false] ∧
  user_results cs 2 = [true; false; true; false] ∧
  user_results cs 3 = [true; false; true; false] ∧
  thread_safety_checks cs = true.
Proof.
  intros Hi.
  assert (user_results cs 1 = [true; false; true; false]) as H1.
  { unfold user_results.
    rewrite (interleaving_decisions _ test_threads cs 0 (worker 1 user1_data));
      [reflexivity|done|reflexivity| |].
    - repeat constructor.
    - intros [|[|[|j]]] l' Hj [= <-]; try done; repeat constructor. }
  assert (user_results cs 2 = [true; false; true; false]) as H2.
  { unfold user_results.
    rewrite (interleaving_decisions _ test_threads cs 1 (worker 2 user2_data));
      [reflexivity|done|reflexivity| |].
    - repeat constructor.
    - intros [|[|[|j]]] l' Hj [= <-]; try done; repeat constructor. }
  assert (user_results cs 3 = [true; false; true; false]) as H3.
  { unfold user_results.
    rewrite (interleaving_decisions _ test_threads cs 2 (worker 3 user3_data));
      [reflexivity|done|reflexivity| |].
    - repeat constructor.
    - intros [|[|[|j]]] l' Hj [= <-]; try done; repeat constructor. }
  repeat split; try done.
  unfold thread_safety_checks. cbn [forallb]. by rewrite H1, H2, H3.
Qed.

Lemma round_robin_interleaving : Interleaving test_threads round_robin_schedule.
Proof.
  do 4 (eapply (Interleaving_step 0); [reflexivity|];
        eapply (Interleaving_step 1); [reflexivity|];
        eapply (Interleaving_step 2); [reflexivity|]).
  apply Interleaving_done. by repeat constructor.
Defined.

Lemma thread_safety_under_every_schedule_witness :
  thread_safety_checks round_robin_schedule = true.
Proof.
  apply (thread_safety_under_every_schedule round_robin_schedule
           round_robin_interleaving).
Defined.

(** * Repeating a call, the window after a sequence, the lock *)

(** A [should_process] call repeated with the same timestamp and key
    (under any event id) is accepted only when the first one was and the
    window is zero or negative; with a positive window the repeat is always
    throttled. *)
Theorem repeated_call self t e e' key :
  returned (should_process t e' key (final (should_process t e key self)))
  = (λ b, b && (_window self <=? 0)) <$> returned (should_process t e key self).
Proof.
  rewrite (should_process_eq self).
  destruct (_last_processed_timestamps self !! key) as [last|] eqn:Hk;
    [destruct (t - last >=? _window self) eqn:Hge|];
    rewrite should_process_eq; cbn; rewrite ?lookup_insert_eq, ?Hk, ?Hge;
    try done.
  all: rewrite Z.sub_diag;
    by destruct (Z.geb_spec 0 (_window self)), (Z.leb_spec (_window self) 0);
      try lia.
Qed.

Lemma windows_of_cons c cs :
  windows_of (c :: cs) =
  match c with CallUpdateWindow w => [w] | _ => [] end ++ windows_of cs.
Proof. by destruct c. Qed.

(** After any sequence of calls the window is the argument of the last
    [update_window] call in it, or the window before when there is none;
    [get_window] returns that value. *)
Theorem window_after cs self :
  _window (after cs self) = default (_window self) (last (windows_of cs)) ∧
  returned (get_window (after cs self))
  = Some (default (_window self) (last (windows_of cs))).
Proof.
  assert (_window (after cs self)
          = default (_window self) (last (windows_of cs))) as Hw.
  { revert self. induction cs as [|c cs IH]; intros self; [done|].
    rewrite after_cons, IH, windows_of_cons. clear IH.
    call_paths c self; cbn; try done.
    by destruct (windows_of cs) as [|w ws]; [|rewrite !last_cons;
      destruct (last ws)]. }
  split; [done|]. by rewrite get_window_eq, Hw.
Qed.

Lemma final_call_lock c self : _lock (final (call c self)) = _lock self.
Proof. by call_paths c self. Qed.

(** No call leaves the lock held.  A [with] block gives the lock back
    whether its body returns or raises, provided the body itself leaves the
    depth as it found it; hence after any sequence of calls the depth is
    the one before, and 0 on an instance made by [__init__]. *)
Theorem lock_released :
  (∀ (A : Type) (body : M A) self,
     _lock (final (body (with_lock_depth (S (_lock self)) self)))
     = S (_lock self) →
     _lock (final (with_lock body self)) = _lock self) ∧
  (∀ cs self, _lock (after cs self) = _lock self) ∧
  (∀ cs window, _lock (after cs (fresh window)) = 0%nat).
Proof.
  assert (∀ cs self, _lock (after cs self) = _lock self) as Hseq.
  { induction cs as [|c cs IH]; intros self; [done|].
    by rewrite after_cons, IH, final_call_lock. }
  split; [|split; [done|]].
  - intros A body self Hbody. unfold with_lock, mbind, M_bind, acquire.
    cbn. destruct (body _) as [a s l|e s l]; cbn in *; by rewrite Hbody.
  - intros cs window. by rewrite Hseq.
Qed.

(** A body that raises: the subscript of a missing key under the lock. *)
Lemma lock_released_witness :
  with_lock (dict_getitem "userZ") userA_at_10_window_10
    = Raised (KeyError "userZ") userA_at_10_window_10 [] ∧
  _lock (final (with_lock (dict_getitem "userZ") userA_at_10_window_10))
    = _lock userA_at_10_window_10.
Proof.
  split; [reflexivity|].
  destruct lock_released as (Hwith & _).
  apply Hwith. reflexivity.
Defined.

(** * The high-load example *)

#[global] Instance user_key_inj : Inj (=) (=) user_key.
Proof.
  intros a b Hab. unfold user_key in Hab. cbn in Hab.
  injection Hab as Hab. by apply (inj pretty).
Qed.

Lemma high_load_events_spec randint u evs : ∀ base p t self,
  ∃ p' t' self' l,
    high_load_events randint u evs base (p, t) self
    = Returned (p', t') self' l ∧
    p' + t' = p + t + Z.of_nat (length evs) ∧
    p ≤ p' ∧
    _window self' = _window self ∧
    _lock self' = _lock self ∧
    dom (_last_processed_timestamps self')
    = dom (_last_processed_timestamps self)
      ∪ (if evs is [] then ∅ else {[user_key u]}) ∧
    (evs ≠ [] → _last_processed_timestamps self !! user_key u = None →
     p + 1 ≤ p').
Proof.
  induction evs as [|ev evs IH]; intros base p t self.
  - exists p, t, self, []. split; [done|]. split; [cbn; lia|].
    split; [lia|]. split; [done|]. split; [done|].
    split; [by rewrite (right_id_L ∅ (∪))|done].
  - cbn [high_load_events]. unfold mbind, M_bind at 1.
    rewrite should_process_eq.
    destruct (_last_processed_timestamps self !! user_key u) as [last|] eqn:Hk;
      [destruct (_ >=? _)|]; cbn [add_log fst snd];
      match goal with
      | |- context [high_load_events _ _ _ ?b (?p1, ?t1) ?s] =>
          destruct (IH b p1 t1 s)
            as (p' & t' & self' & l & -> & Hsum & Hp & Hw & Hl & Hdom & _)
      end;
      eexists p', t', self', _; (split; [reflexivity|]);
      cbn in Hw, Hl, Hdom; rewrite ?dom_insert_L in Hdom;
      apply (elem_of_dom_2 (D := gset string)) in Hk || clear Hk;
      (split; [rewrite length_cons; lia|]);
      (split; [lia|]); (split; [done|]); (split; [done|]);
      (split; [rewrite Hdom; destruct evs; by_elements
              | intros; first [done | lia]]).
Qed.

Lemma high_load_users_spec randint n us : ∀ p t self,
  NoDup us →
  (∀ u, u ∈ us → _last_processed_timestamps self !! user_key u = None) →
  ∃ p' t' self' l,
    high_load_users randint us n (p, t) self = Returned (p', t') self' l ∧
    p' + t' = p + t + Z.of_nat (length us) * Z.of_nat (Z.to_nat n) ∧
    (0 < n → p + Z.of_nat (length us) ≤ p') ∧
    p ≤ p' ∧
    _window self' = _window self ∧
    _lock self' = _lock self ∧
    dom (_last_processed_timestamps self')
    = dom (_last_processed_timestamps self)
      ∪ (if decide (0 < n) then list_to_set (user_key <$> us) else ∅).
Proof.
  induction us as [|u us IH]; intros p t self Hnd Hfresh.
  - exists p, t, self, []. split; [done|]. split; [cbn; lia|].
    split; [cbn; lia|]. split; [lia|]. split; [done|]. split; [done|].
    case_decide; cbn; by rewrite (right_id_L ∅ (∪)).
  - apply NoDup_cons in Hnd as [Hu Hnd].
    cbn [high_load_users]. unfold mbind, M_bind at 1.
    destruct (high_load_events_spec randint u (seqZ 0 n) 0 p t self)
      as (p1 & t1 & s1 & l1 & -> & Hsum1 & Hp1 & Hw1 & Hl1 & Hdom1 & Hfirst).
    rewrite length_seqZ in Hsum1.
    destruct (IH p1 t1 s1 Hnd) as (p' & t' & s' & l & -> & Hsum & Hmin & Hp & Hw & Hl & Hdom).
    { intros v Hv. apply (not_elem_of_dom (D := gset string)).
      rewrite Hdom1. intros [Hin|Hin]%elem_of_union.
      - apply (elem_of_dom (D := gset string)) in Hin as [x Hx].
        rewrite Hfresh in Hx; [done|by right].
      - destruct (seqZ 0 n); [by_elements|].
        apply elem_of_singleton, (inj user_key) in Hin. by subst. }
    eexists p', t', s', _. split; [reflexivity|].
    split; [rewrite length_cons; lia|].
    split.
    { intros Hn. rewrite length_cons.
      assert (p + 1 ≤ p1); [|lia].
      apply Hfirst; [|apply Hfresh; by left].
      rewrite seqZ_cons by done. done. }
    split; [lia|]. split; [congruence|]. split; [congruence|].
    rewrite Hdom, Hdom1. case_decide as Hn.
    + rewrite seqZ_cons by done. rewrite fmap_cons, list_to_set_cons.
      by_elements.
    + rewrite seqZ_nil by lia. by_elements.
Qed.

(** The two loops of [high_load_example] return for every argument.  When
    both arguments are non-negative the two counters add up to
    [num_users * events_per_user]; when moreover each user has at least one
    event, at least [num_users] events are processed (the first of each
    user) and the instance tracks exactly [num_users] keys. *)
Theorem high_load_counts randint num_users events_per_user :
  ∃ p t throttler l,
    high_load_users randint (seqZ 0 num_users) events_per_user (0, 0) (fresh 5)
    = Returned (p, t) throttler l ∧
    (0 ≤ num_users → 0 ≤ events_per_user →
     p + t = num_users * events_per_user) ∧
    (0 ≤ num_users → 0 < events_per_user →
     num_users ≤ p ∧
     returned (get_key_count throttler) = Some num_users).
Proof.
  destruct (high_load_users_spec randint events_per_user (seqZ 0 num_users)
              0 0 (fresh 5) (NoDup_seqZ _ _))
    as (p & t & s & l & Hrun & Hsum & Hmin & _ & _ & _ & Hdom); [done|].
  rewrite length_seqZ in Hsum, Hmin.
  exists p, t, s, l. split; [done|]. split; [lia|].
  intros Hu He. split; [lia|].
  rewrite get_key_count_eq. cbn. f_equal.
  rewrite <-size_dom, Hdom. rewrite decide_True by done. cbn.
  rewrite dom_empty_L, (left_id_L ∅ (∪)), size_list_to_set.
  - rewrite length_fmap, length_seqZ. lia.
  - apply NoDup_fmap_2; [apply _|apply NoDup_seqZ].
Qed.

Lemma high_load_counts_witness :
  ∃ p t throttler l,
    high_load_users (λ _ event_num, event_num `mod` 11) (seqZ 0 3) 4 (0, 0)
      (fresh 5)
    = Returned (p, t) throttler l ∧
    p + t = 12 ∧ 3 ≤ p ∧ returned (get_key_count throttler) = Some 3.
Proof.
  destruct (high_load_counts (λ _ event_num, event_num `mod` 11) 3 4)
    as (p & t & s & l & Hrun & Hsum & Hkeys).
  destruct Hkeys as [Hmin Hcount]; [lia|lia|].
  exists p, t, s, l. split; [exact Hrun|].
  split; [apply Hsum; lia|]. split; [exact Hmin|exact Hcount].
Defined.

(** [high_load_example] with no user or no event per user raises
    [ZeroDivisionError] when it logs the processed percentage: the loops
    have run, [total_events] is 0. *)
Theorem high_load_zero_division randint total_time_is_zero num_users events :
  num_users * events = 0 →
  high_load_example randint total_time_is_zero num_users events
  = ZeroDivisionError 102.
Proof.
  intros Hz. unfold high_load_example.
  destruct (high_load_users_spec randint events (seqZ 0 num_users)
              0 0 (fresh 5) (NoDup_seqZ _ _))
    as (p & t & s & l & -> & _); [done|].
  by rewrite Hz.
Qed.

Lemma high_load_zero_division_witness :
  high_load_example (λ _ _, 4) false 100 0 = ZeroDivisionError 102.
Proof. apply high_load_zero_division. reflexivity. Defined.

(** * Configuring loggers *)

Section SetupLogger.
Variables (pf : Platform) (logger_name : string) (log_level : Z).
Variables (log_to_console log_to_file : bool) (log_dir : string).
Variables (log_file : option string) (max_file_size_mb backup_count : Z).

Let setup := setup_logger pf logger_name log_level log_to_console log_to_file
               log_dir log_file max_file_size_mb backup_count.
Let installed := installed_handlers pf logger_name log_to_console log_to_file
                   log_dir log_file max_file_size_mb backup_count.

(** After the level is set and the handlers are cleared under the
    [hasHandlers] test, no handler is left: when the test fails the logger
    had none. *)
Lemma cleared_before_install loggers :
  (if hasHandlers pf loggers logger_name
        (setLevel log_level (getLogger logger_name loggers))
   then handlers_clear (setLevel log_level (getLogger logger_name loggers))
   else setLevel log_level (getLogger logger_name loggers))
  = mkLogger log_level [].
Proof.
  unfold hasHandlers, handlers_clear, setLevel. cbn.
  destruct (logger_handlers (getLogger logger_name loggers)) as [|h hs]; cbn;
    [by destruct (ancestors_have_handlers _ _ _)|done].
Qed.

Lemma setup_logger_lookup loggers :
  (setup loggers).1 !! logger_key logger_name
  = Some (mkLogger log_level installed).
Proof.
  subst setup installed. unfold setup_logger, installed_handlers.
  cbv zeta. rewrite cleared_before_install.
  destruct log_to_console, log_to_file; cbn; by rewrite lookup_insert_eq.
Qed.

Lemma setup_logger_lookup_ne loggers other :
  other ≠ logger_key logger_name →
  (setup loggers).1 !! other = loggers !! other.
Proof.
  intros Hne. subst setup. unfold setup_logger. cbv zeta.
  destruct log_to_console, log_to_file; cbn; by rewrite lookup_insert_ne.
Qed.

End SetupLogger.



Lemma module_logger_key module_name :
  logger_key ("event_throttler." +:+ module_name)
  = "event_throttler." +:+ module_name.
Proof. reflexivity. Qed.

(** The application logger and the module loggers are filed under different
    names, and different modules under different names: configuring one
    with [get_app_logger] or [get_module_logger] leaves the others as they
    are, and two module loggers can be configured in either order. *)
Theorem app_and_module_loggers_apart pf pf' log_to_file log_to_file' loggers :
  (∀ m, (get_module_logger pf m log_to_file loggers).1 !! "event_throttler"%string
        = loggers !! "event_throttler"%string) ∧
  (∀ m, (get_app_logger pf log_to_file loggers).1
          !! ("event_throttler." +:+ m)
        = loggers !! ("event_throttler." +:+ m)) ∧
  (∀ m m', m ≠ m' →
     (get_module_logger pf m log_to_file loggers).1
       !! ("event_throttler." +:+ m')
     = loggers !! ("event_throttler." +:+ m') ∧
     (get_module_logger pf' m' log_to_file'
        (get_module_logger pf m log_to_file loggers).1).1
     = (get_module_logger pf m log_to_file
          (get_module_logger pf' m' log_to_file' loggers).1).1).
Proof.
  assert (∀ m m', m ≠ m' →
            ("event_throttler." +:+ m' : string)
            ≠ logger_key ("event_throttler." +:+ m)) as Hinj.
  { intros m m' Hne Heq. rewrite module_logger_key in Heq.
    apply Hne. symmetry. revert Heq. generalize m m'. clear.
    intros m m' Heq. by simplify_eq/=. }
  split; [|split].
  - intros m. unfold get_module_logger.
    by apply setup_logger_lookup_ne.
  - intros m. unfold get_app_logger.
    by apply setup_logger_lookup_ne.
  - intros m m' Hne. split.
    + unfold get_module_logger. by apply setup_logger_lookup_ne, Hinj.
    + apply map_eq. intros k. unfold get_module_logger.
      destruct (decide (k = logger_key ("event_throttler." +:+ m)))
        as [->|Hk]; [|destruct (decide
          (k = logger_key ("event_throttler." +:+ m'))) as [->|Hk']].
      * rewrite setup_logger_lookup_ne by (by apply Hinj).
        by rewrite !setup_logger_lookup.
      * rewrite setup_logger_lookup.
        rewrite setup_logger_lookup_ne by (by apply Hinj).
        by rewrite setup_logger_lookup.
      * by rewrite !setup_logger_lookup_ne.
Qed.

Lemma app_and_module_loggers_apart_witness :
  (get_module_logger posix_like "examples" true cluttered_loggers).1
    !! "event_throttler.throttler"%string
  = cluttered_loggers !! "event_throttler.throttler"%string.
Proof.
  destruct (app_and_module_loggers_apart posix_like posix_like true true
              cluttered_loggers) as (_ & _ & Hmod).
  destruct (Hmod "examples"%string "throttler"%string) as [Hkeep _];
    [discriminate|exact Hkeep].
Defined.

(** * What the throttler's logger lets through *)

(** The logger of throttler.py, as line 16 obtains it. *)
Lemma throttler_logger_configured pf loggers :
  (get_module_logger pf "throttler" false loggers).1
    !! "event_throttler.throttler"%string
  = Some (mkLogger logging_INFO [StreamHandler LOG_FORMAT]) ∧
  (get_module_logger pf "throttler" false loggers).2 = [].
Proof.
  split; [|reflexivity].
  exact (setup_logger_lookup pf ("event_throttler." +:+ "throttler")
           LOG_LEVEL LOG_TO_CONSOLE false LOG_DIRECTORY None
           MAX_LOG_SIZE_MB LOG_BACKUP_COUNT loggers).
Qed.

Lemma logged_bind {A B} (mx : M A) (f : A → M B) self :
  logged ((mx ≫= f) self)
  = logged (mx self)
    ++ match mx self with
       | Returned a self' _ => logged (f a self')
       | Raised _ _ _ => []
       end.
Proof.
  unfold mbind, M_bind. destruct (mx self) as [a s l|e s l]; cbn.
  - by destruct (f a s).
  - by rewrite app_nil_r.
Qed.

Lemma logged_calls_cons c cs self :
  logged (calls (c :: cs) self)
  = logged (call c self) ++ logged (calls cs (final (call c self))).
Proof.
  rewrite calls_cons, logged_bind.
  destruct (call_returns c self) as (v & s & l & ->). cbn.
  rewrite logged_bind.
  destruct (calls_returns cs s) as (vs & s' & l' & ->). cbn.
  by rewrite app_nil_r.
Qed.

(** With the settings of config.py the throttler's logger has level INFO
    and one console handler, and setting it up touches no file.  Every
    record [should_process] logs is below that level, so decisions leave no
    trace; over any sequence of calls the records that pass are exactly
    those of the [update_window] and [clear] calls, one each. *)
Theorem throttler_log_output pf loggers cs self :
  let logger := mkLogger logging_INFO [StreamHandler LOG_FORMAT] in
  (get_module_logger pf "throttler" false loggers).1
    !! "event_throttler.throttler"%string = Some logger ∧
  (get_module_logger pf "throttler" false loggers).2 = [] ∧
  (∀ t e k, filter (passes logger) (logged (should_process t e k self)) = []) ∧
  length (filter (passes logger) (logged (calls cs self)))
  = length (filter (λ c, is_update_window c || is_clear c) cs).
Proof.
  intros logger.
  destruct (throttler_logger_configured pf loggers) as [Hcfg Hos].
  split; [done|]. split; [done|]. split.
  - intros t e k. by should_process_paths k.
  - revert self. induction cs as [|c cs IH]; intros self; [done|].
    rewrite logged_calls_cons, filter_app, length_app, IH. clear IH.
    call_paths c self; cbn; try done.
Qed.

(** * Clearing is starting over *)

Lemma returned_calls_cons c cs self :
  returned (calls (c :: cs) self)
  = v ← returned (call c self);
    vs ← returned (calls cs (final (call c self)));
    Some (v :: vs).
Proof.
  rewrite calls_cons.
  destruct (call_returns c self) as (v & s & l & Hc).
  rewrite (bind_Returned _ _ _ _ _ _ Hc), returned_add_log, Hc. cbn.
  destruct (calls_returns cs s) as (vs & s' & l' & Hcs).
  by rewrite (bind_Returned _ _ _ _ _ _ Hcs), returned_add_log, Hcs.
Qed.

Lemma call_same_window_and_timestamps c s1 s2 :
  _window s1 = _window s2 →
  _last_processed_timestamps s1 = _last_processed_timestamps s2 →
  returned (call c s1) = returned (call c s2) ∧
  logged (call c s1) = logged (call c s2) ∧
  _window (final (call c s1)) = _window (final (call c s2)) ∧
  _last_processed_timestamps (final (call c s1))
  = _last_processed_timestamps (final (call c s2)).
Proof.
  intros Hw Hm. destruct c as [t e k|nw| | |].
  - rewrite !call_should_process_eq, <-Hm, <-Hw.
    destruct (_last_processed_timestamps s1 !! k) as [last|];
      [destruct (_ >=? _)|]; cbn; by rewrite ?Hm.
  - rewrite !call_update_window_eq. cbn. by rewrite Hw, Hm.
  - rewrite !call_get_window_eq. cbn. by rewrite Hw, Hm.
  - by rewrite !call_clear_eq.
  - rewrite !call_get_key_count_eq. cbn. by rewrite Hw, Hm.
Qed.

(** After [clear] the instance answers every later sequence of calls as
    a new instance made with the current window would: the values returned
    and the records logged are the same, call for call. *)
Theorem clear_is_new_instance cs self :
  returned (calls cs (final (clear self)))
  = returned (calls cs (fresh (_window self))) ∧
  logged (calls cs (final (clear self)))
  = logged (calls cs (fresh (_window self))).
Proof.
  rewrite clear_eq. cbn [final].
  assert (∀ s1 s2,
    _window s1 = _window s2 →
    _last_processed_timestamps s1 = _last_processed_timestamps s2 →
    returned (calls cs s1) = returned (calls cs s2) ∧
    logged (calls cs s1) = logged (calls cs s2)) as Hsame; [|by apply Hsame].
  induction cs as [|c cs IH]; intros s1 s2 Hw Hm; [done|].
  destruct (call_same_window_and_timestamps c s1 s2 Hw Hm)
    as (Hr & Hl & Hw' & Hm').
  destruct (IH _ _ Hw' Hm') as [IHr IHl].
  by rewrite !returned_calls_cons, !logged_calls_cons, Hr, Hl, IHr, IHl.
Qed.
